(** * The post-indexing pipeline of the ai-blog VitePress site

    The blog collects its Markdown posts once, when the site configuration
    is loaded ([postsAction], [tagsAction] in [.vitepress/config.mts]),
    injects the two arrays into the pages as the globals [__POSTS__] and
    [__TAGS__], and derives from them the newest-posts widget
    ([getNewPosts]), the per-tag routes ([paths] of [tags/[tag].paths.ts])
    and the numbered listing pages.

    The TypeScript is embedded shallowly: arrays are lists, a thrown
    exception is the [Throw] case of a completion, the console and the
    injected [__POSTS__] array are explicit state, and a route-parameter
    object is a finite map from parameter names to strings. *)

From Stdlib Require Import ZArith Ascii String.
From stdpp Require Import base decidable option functions list sorting strings gmap.

Local Open Scope string_scope.
Local Open Scope Z_scope.

(** ** JavaScript completions *)

(** A call either returns normally or throws. *)
Inductive Completion (V A : Type) : Type :=
  | Normal (a : A)
  | Throw (v : V).
Arguments Normal {V A} a.
Arguments Throw {V A} v.

Definition bindC {V A B} (c : Completion V A) (k : A → Completion V B)
    : Completion V B :=
  match c with
  | Normal a => k a
  | Throw v => Throw v
  end.

Global Instance Completion_ret {V} : MRet (Completion V) := λ A, Normal.
Global Instance Completion_bind {V} : MBind (Completion V) :=
  λ A B k c, bindC c k.

(** [new Error(msg)]: the object carries the class name, the message and
    the optional [cause]; the one-argument constructor leaves the cause
    undefined. *)
Record JsError (V : Type) : Type := mkJsError {
  name : string;
  message : string;
  cause : option V;
}.
Arguments mkJsError {V} _ _ _.
Arguments name {V} _.
Arguments message {V} _.
Arguments cause {V} _.

Definition new_Error {V} (msg : string) : JsError V :=
  {| name := "Error"; message := msg; cause := None |}.

(** ** Array primitives *)

Section Arrays.
Context {A : Type}.

(** [Array.prototype.map] with a callback that may throw: the elements
    are visited from index 0 upwards and the first exception aborts the
    traversal, so no array is produced. *)
Fixpoint Array_map {V B} (callback : A → Completion V B) (l : list A)
    : Completion V (list B) :=
  match l with
  | [] => Normal []
  | x :: l' =>
      y ← callback x;
      ys ← Array_map callback l';
      mret (y :: ys)
  end.

(** [Array.prototype.sort(comparefn)]: the sort is stable, and [a] is
    placed before [b] when [comparefn(a, b) <= 0].  Insertion from the
    right end puts every element in front of the first element of the
    already sorted suffix that does not have to precede it, which keeps
    elements that compare equal in their original order. *)
Fixpoint sort_insert (comparefn : A → A → Z) (x : A) (l : list A) : list A :=
  match l with
  | [] => [x]
  | y :: l' =>
      if decide (comparefn x y ≤ 0) then x :: l
      else y :: sort_insert comparefn x l'
  end.

Definition Array_sort (comparefn : A → A → Z) (l : list A) : list A :=
  foldr (sort_insert comparefn) [] l.

(** [Array.prototype.slice(start, end)] for integral arguments: a
    negative index counts from the end of the array, and both indices
    are clamped to [0 .. length]. *)
Definition relative_index (len i : Z) : Z :=
  if decide (i < 0) then Z.max (len + i) 0 else Z.min i len.

Definition Array_slice (start end_ : Z) (l : list A) : list A :=
  let len := Z.of_nat (length l) in
  let k := relative_index len start in
  let final := relative_index len end_ in
  take (Z.to_nat (final - k)) (drop (Z.to_nat k) l).
End Arrays.

(** ** The data model *)

(** An author-supplied navigation hint: [false] switches the link off, a
    [{text, link}] pair points at a neighbouring post. *)
Inductive NavHint : Type :=
  | NavDisabled
  | NavLink (text link : string).

(** [Post].  The [date] field holds the instant the front-matter date
    denotes, in milliseconds since the epoch: it is what
    [new Date(post.date).getTime()] evaluates to, a finite number because
    an unparsable date never reaches the collection. *)
Record Post : Type := mkPost {
  path : string;
  date : Z;
  title : string;
  description : string;
  tags : list string;
  prev : option NavHint;
  next : option NavHint;
}.

Global Instance NavHint_eq_dec : EqDecision NavHint.
Proof. solve_decision. Defined.
Global Instance Post_eq_dec : EqDecision Post.
Proof. solve_decision. Defined.

(** ** [getNewPosts]

    [[
    declare const __POSTS__: Post[]
    export const getNewPosts = (num: number) => {
      const posts = __POSTS__
      posts.sort((a, b) => new Date(b.date).getTime() - new Date(a.date).getTime())
      return posts.slice(0, num)
    }
    ]]

    [posts] is an alias of the injected array and [sort] works in place,
    so the call is a state transformer on [__POSTS__]: it yields the new
    contents of the global together with the returned slice. *)

Definition newest_first (a b : Post) : Z := date b - date a.

Definition getNewPosts (num : Z) (POSTS : list Post) : list Post * list Post :=
  let posts := Array_sort newest_first POSTS in
  (posts, Array_slice 0 num posts).

(** [a] may stand before [b] in a listing that shows the latest post
    first. *)
Definition not_older (a b : Post) : Prop := date b ≤ date a.

Global Instance not_older_dec : RelDecision not_older.
Proof. intros a b. unfold not_older. apply _. Defined.

(** *** The array as an object

    [__POSTS__] evaluates to a reference to an array object and [sort]
    changes that object: whoever holds the same reference sees the new
    order, whoever holds another array sees nothing.  Which object the
    identifier denotes is decided by the way the constant reaches the
    page: one object for every reader where it is a true global, an
    object of the module's own where the bundler substitutes the
    constant into each module that mentions it; there the array [posts]
    of the configuration module is a different object.  The heap gives
    the contents of every array object, [ref] is the object the
    identifier denotes where [getNewPosts] runs. *)
Definition getNewPosts_in (heap : nat → list Post) (ref : nat) (num : Z)
    : (nat → list Post) * list Post :=
  let '(posts, newest) := getNewPosts num (heap ref) in
  (<[ref := posts]> heap, newest).

(** ** [postsAction]

    [[
    export function postsAction(): Post[] {
      try {
        return getAllMarkdownFiles().map((filePath) => parseFileToPost(filePath))
      } catch (e) {
        console.error(e)
        throw new Error('Failed to retrieve article')
      }
    }
    ]]

    The two helpers come from the service layer; whatever they throw is a
    value of [V].  The console is the list of values written to it. *)

Section PostsAction.
Context {V : Type}.
Variable getAllMarkdownFiles : unit → Completion V (list string).
Variable parseFileToPost : string → Completion V Post.

Definition postsAction (console : list V)
    : list V * Completion (JsError V) (list Post) :=
  match files ← getAllMarkdownFiles (); Array_map parseFileToPost files with
  | Normal posts => (console, Normal posts)
  | Throw e => ((console ++ [e])%list, Throw (new_Error "Failed to retrieve article"))
  end.
End PostsAction.

(** [s.includes(sub)]. *)
Definition includes (sub s : string) : bool :=
  bool_decide (is_Some (String.index 0 sub s)).

(** The first file of an enumeration that the service layer rejects, with
    the value thrown for it. *)
Fixpoint first_failure {V} (parseFileToPost : string → Completion V Post)
    (files : list string) : option (string * V) :=
  match files with
  | [] => None
  | f :: files' =>
      match parseFileToPost f with
      | Normal _ => first_failure parseFileToPost files'
      | Throw v => Some (f, v)
      end
  end.

(** Two completions are related when both return related values or both
    throw related values. *)
Definition Completion_rel {V A} (RV : relation V) (RA : relation A)
    (c1 c2 : Completion V A) : Prop :=
  match c1, c2 with
  | Normal a1, Normal a2 => RA a1 a2
  | Throw v1, Throw v2 => RV v1 v2
  | _, _ => False
  end.

(** Two walks of one content tree: both fail, or both list the same
    files, in whatever order the directories were read. *)
Definition same_listing {V} : relation (Completion V (list string)) :=
  Completion_rel (λ _ _, True) (≡ₚ).

(** Two builds agree when both abort with the same error, or both return
    and the two collections hold the same posts, in whatever order. *)
Definition same_build {V} : relation (Completion V (list Post)) :=
  Completion_rel (=) (≡ₚ).

(** What a build error that wraps the file-level error [first] of the
    file [file] would look like: the error is its cause and the path is
    part of its message. *)
Definition wraps_file_error {V} (first : V) (file : string)
    (r : Completion (JsError V) (list Post)) : Prop :=
  ∃ err, r = Throw err ∧ cause err = Some first
         ∧ includes file (message err) = true.

(** ** The tag routes, [tags/[tag].paths.ts]

    [[
    export default {
      paths() {
        return tags.map((tag) => ({ params: { tag } }))
      },
    }
    ]]

    [tags] is the array exported by the configuration. *)

Record PathEntry : Type := mkPathEntry {
  params : gmap string string;
}.

Global Instance PathEntry_eq_dec : EqDecision PathEntry.
Proof. solve_decision. Defined.

Definition tag_entry (tag : string) : PathEntry :=
  {| params := {[ "tag" := tag ]} |}.

Definition paths (tags : list string) : list PathEntry :=
  tag_entry <$> tags.

(** ** The site configuration, [.vitepress/config.mts]

    [[
    export const posts: Post[] = postsAction()
    export const tags: string[] = tagsAction()
    ...
        vite: {
          define: {
            __POSTS__: posts,
            __TAGS__: tags,
          },
    ]]

    Loading the module runs the two actions in this order and hands
    their results to the pages through the [define] block.  The tags
    action is imported from a file of its own; here it is any action on
    the console, like [postsAction]. *)

Record Define : Type := mkDefine {
  __POSTS__ : list Post;
  __TAGS__ : list string;
}.

Section Config.
Context {V : Type}.
Variable getAllMarkdownFiles : unit → Completion V (list string).
Variable parseFileToPost : string → Completion V Post.
Variable tagsAction : list V → list V * Completion (JsError V) (list string).

Definition config (console : list V)
    : list V * Completion (JsError V) Define :=
  let '(console1, posts) := postsAction getAllMarkdownFiles parseFileToPost console in
  match posts with
  | Throw e => (console1, Throw e)
  | Normal posts =>
      let '(console2, tags) := tagsAction console1 in
      match tags with
      | Throw e => (console2, Throw e)
      | Normal tags =>
          (console2, Normal {| __POSTS__ := posts; __TAGS__ := tags |})
      end
  end.
End Config.

(** ** The tag extractor *)

(** Keeps the first occurrence of every element, as a [Set] built from
    the array would. *)
Fixpoint dedupe (l : list string) : list string :=
  match l with
  | [] => []
  | x :: l' => x :: filter (λ y, y ≠ x) (dedupe l')
  end.

(** The comparison [sort()] uses without a [comparefn]: strings are
    ordered code unit by code unit. *)
Definition default_compare (a b : string) : Z :=
  match String.compare a b with
  | Lt => -1
  | Eq => 0
  | Gt => 1
  end.

(** Modelled from the spec: the Tag Extractor, [tagsAction] of
    [.vitepress/data/action/tags-action.ts], which is not among the
    sources.  Given the full Post collection it returns the sorted,
    duplicate-free set of all tags used by any post. *)
Definition tagsAction (posts : list Post) : list string :=
  Array_sort default_compare (dedupe (posts ≫= tags)).

(** ** The pagination planner *)

(** Modelled from the spec: the number of listing pages,
    [ceil(count / pageSize)], but never fewer than one.  The route file
    of the numbered listing pages is not among the sources. *)
Definition pageTotal (count pageSize : nat) : nat :=
  Nat.max 1 ((count + pageSize - 1) / pageSize)%nat.

(** Modelled from the spec: the pagination plan, the ordered sequence of
    page numbers [1 .. pageTotal]. *)
Definition paginationPlan (count pageSize : nat) : list nat :=
  seq 1 (pageTotal count pageSize).

(** ** The post model builder *)

(** The parsed metadata block restricted to the recognised keys; every
    key is either absent or holds a value of its documented shape. *)
Record FrontMatter : Type := mkFrontMatter {
  fm_date : option string;
  fm_title : option string;
  fm_description : option string;
  fm_tags : option (list string);
  fm_prev : option NavHint;
  fm_next : option NavHint;
}.

(** The file-level errors; each names the file it is about. *)
Inductive FileError : Type :=
  | MalformedFrontMatter (file : string)
  | MissingRequiredField (field file : string)
  | InvalidDateFormat (file : string).

Global Instance FileError_eq_dec : EqDecision FileError.
Proof. solve_decision. Defined.

Definition error_file (e : FileError) : string :=
  match e with
  | MalformedFrontMatter file => file
  | MissingRequiredField _ file => file
  | InvalidDateFormat file => file
  end.

(** [String.prototype.trim], on the white space of the ASCII range. *)
Fixpoint trimStart (s : string) : string :=
  match s with
  | EmptyString => EmptyString
  | String a s' => if Ascii.is_space a then trimStart s' else s
  end.

Fixpoint trimEnd (s : string) : string :=
  match s with
  | EmptyString => EmptyString
  | String a s' =>
      match trimEnd s' with
      | EmptyString => if Ascii.is_space a then EmptyString else String a EmptyString
      | t => String a t
      end
  end.

Definition trim (s : string) : string := trimEnd (trimStart s).

(** No white space at either end. *)
Definition starts_with_space (s : string) : bool :=
  match s with
  | EmptyString => false
  | String a _ => Ascii.is_space a
  end.

Fixpoint ends_with_space (s : string) : bool :=
  match s with
  | EmptyString => false
  | String a EmptyString => Ascii.is_space a
  | String _ s' => ends_with_space s'
  end.

Definition trimmed (s : string) : Prop :=
  starts_with_space s = false ∧ ends_with_space s = false.

Fixpoint all_space (s : string) : bool :=
  match s with
  | EmptyString => true
  | String a s' => Ascii.is_space a && all_space s'
  end.

(** Modelled from the spec: tag normalisation of the Post Model Builder.
    An absent list is the empty collection, every tag is trimmed, and
    tags that coincide after trimming collapse to one. *)
Definition normalizeTags (raw : option (list string)) : list string :=
  dedupe (trim <$> default [] raw).

Section ModelBuilder.
(** The ISO-8601 reader: the instant a date or date-time string
    denotes, or nothing when the string is unparsable. *)
Variable parseDate : string → option Z.

(** Modelled from the spec: the Post Model Builder, the second half of
    [parseFileToPost] in [.vitepress/data/service], which is not among
    the sources.  [date] and [title] are required, the date has to
    parse, [description] defaults to the empty string, the tags are
    normalised and [prev]/[next] pass through as authored. *)
Definition buildPost (fm : FrontMatter) (file : string)
    : Completion FileError Post :=
  match fm_date fm with
  | None => Throw (MissingRequiredField "date" file)
  | Some d =>
      match fm_title fm with
      | None => Throw (MissingRequiredField "title" file)
      | Some t =>
          match parseDate d with
          | None => Throw (InvalidDateFormat file)
          | Some instant =>
              Normal {| path := file;
                        date := instant;
                        title := t;
                        description := default "" (fm_description fm);
                        tags := normalizeTags (fm_tags fm);
                        prev := fm_prev fm;
                        next := fm_next fm |}
          end
      end
  end.

(** A content tree maps the relative path of every Markdown file to
    the outcome of the front-matter parser on it: the metadata block,
    or nothing when the block is missing or unreadable. *)
Definition parseFile (tree : gmap string (option FrontMatter))
    (file : string) : Completion FileError Post :=
  match tree !! file with
  | Some (Some fm) => buildPost fm file
  | _ => Throw (MalformedFrontMatter file)
  end.

Definition walk (tree : gmap string (option FrontMatter)) (_ : unit)
    : Completion FileError (list string) :=
  Normal (map_to_list tree).*1.
End ModelBuilder.

(** ** Calendar dates *)

Definition digit (c : ascii) : option Z :=
  let n := Z.of_N (N_of_ascii c) in
  if decide (48 ≤ n ≤ 57) then Some (n - 48) else None.

Fixpoint decimal (acc : Z) (cs : list ascii) : option Z :=
  match cs with
  | [] => Some acc
  | c :: cs' => d ← digit c; decimal (10 * acc + d) cs'
  end.

Definition leap_year (y : Z) : bool :=
  bool_decide (y mod 4 = 0 ∧ (y mod 100 ≠ 0 ∨ y mod 400 = 0)).

Definition days_in_month (y m : Z) : Z :=
  if decide (m = 2) then (if leap_year y then 29 else 28)
  else if decide (m = 4 ∨ m = 6 ∨ m = 9 ∨ m = 11) then 30
  else 31.

(** Days between 1970-01-01 and the given day of the proleptic
    Gregorian calendar. *)
Definition days_from_civil (y m d : Z) : Z :=
  let y' := if decide (m ≤ 2) then y - 1 else y in
  let era := y' / 400 in
  let yoe := y' - era * 400 in
  let mp := if decide (m ≤ 2) then m + 9 else m - 3 in
  let doy := (153 * mp + 2) / 5 + d - 1 in
  let doe := yoe * 365 + yoe / 4 - yoe / 100 + doy in
  era * 146097 + doe - 719468.

(** Modelled from the spec: a reader for the calendar-date form
    [YYYY-MM-DD] of ISO-8601, the form the posts of the repository use
    ([date: 2025-07-20]); the instant is midnight UTC of that day. *)
Definition isoDate (s : string) : option Z :=
  match list_ascii_of_string s with
  | [y1; y2; y3; y4; dash1; m1; m2; dash2; d1; d2] =>
      if decide (dash1 = "-"%char ∧ dash2 = "-"%char) then
        y ← decimal 0 [y1; y2; y3; y4];
        m ← decimal 0 [m1; m2];
        d ← decimal 0 [d1; d2];
        if decide (1 ≤ m ≤ 12 ∧ 1 ≤ d ≤ days_in_month y m)
        then Some (86400000 * days_from_civil y m d)
        else None
      else None
  | _ => None
  end.

(** ** Two small content trees *)

Definition frontMatterA : FrontMatter :=
  {| fm_date := Some "2025-07-07"; fm_title := Some "A";
     fm_description := None; fm_tags := Some ["ts"];
     fm_prev := None; fm_next := None |}.

Definition frontMatterB : FrontMatter :=
  {| fm_date := Some "2025-07-08"; fm_title := Some "B";
     fm_description := None; fm_tags := Some ["ts"; "generics"];
     fm_prev := None; fm_next := None |}.

(** The same block as [frontMatterB] with the [date] line deleted. *)
Definition frontMatterUndated : FrontMatter :=
  {| fm_date := None; fm_title := Some "B";
     fm_description := None; fm_tags := Some ["ts"; "generics"];
     fm_prev := None; fm_next := None |}.

(** A block whose tag list repeats a tag with stray blanks. *)
Definition frontMatterSpaced : FrontMatter :=
  {| fm_date := Some "2025-07-07"; fm_title := Some "A";
     fm_description := None; fm_tags := Some ["ts"; " ts "];
     fm_prev := None; fm_next := Some NavDisabled |}.

Definition fileA : string := "posts/2025/07/07.md".
Definition fileB : string := "posts/2025/07/08.md".

Definition goodTree : gmap string (option FrontMatter) :=
  <[fileA := Some frontMatterA]> (<[fileB := Some frontMatterB]> ∅).

Definition brokenTree : gmap string (option FrontMatter) :=
  <[fileA := Some frontMatterA]> (<[fileB := Some frontMatterUndated]> ∅).

Definition postA : Post :=
  {| path := fileA; date := 1751846400000; title := "A"; description := "";
     tags := ["ts"]; prev := None; next := None |}.

Definition postB : Post :=
  {| path := fileB; date := 1751932800000; title := "B"; description := "";
     tags := ["ts"; "generics"]; prev := None; next := None |}.

(** One array object, number 0, holding the two posts with the older one
    first: the array the configuration built, and the one [__POSTS__]
    denotes where the constant is a global. *)
Definition sharedHeap : nat → list Post :=
  <[0%nat := [postA; postB]]> (λ _, []).

(** The same with a second object, number 1, of equal contents: the copy
    of the constant a bundled module reads. *)
Definition bundledHeap : nat → list Post :=
  <[1%nat := [postA; postB]]> sharedHeap.

(** * Properties *)

(** ** Completions and array primitives *)

(** Exposes the case analysis behind a sequence of calls that may
    throw. *)
Ltac completion_simpl :=
  unfold mbind, Completion_bind, mret, Completion_ret; simpl.

Lemma Array_map_Normal {V A B} (callback : A → Completion V B) l ys :
  Array_map callback l = Normal ys ↔ Forall2 (λ x y, callback x = Normal y) l ys.
Proof.
  revert ys. induction l as [|x l IH]; intros ys; simpl.
  - split.
    + intros [= <-]. constructor.
    + intros Hnil. apply Forall2_nil_inv_l in Hnil. by subst.
  - completion_simpl.
    destruct (callback x) as [y|v] eqn:Hx; simpl.
    + destruct (Array_map callback l) as [ys'|v] eqn:Hl; simpl.
      * split.
        -- intros [= <-]. constructor; [done|]. by apply IH.
        -- intros Hall. apply Forall2_cons_inv_l in Hall
             as (y' & ys'' & Hy & Hys & ->).
           apply IH in Hys. congruence.
      * split; [done|]. intros Hall.
        apply Forall2_cons_inv_l in Hall as (y' & ys'' & _ & Hys & ->).
        apply IH in Hys. congruence.
    + split; [done|]. intros Hall.
      apply Forall2_cons_inv_l in Hall as (y' & ys'' & Hy & _ & ->).
      congruence.
Qed.

Section ArraySortFacts.
Context {A : Type} (comparefn : A → A → Z).

Lemma sort_insert_Permutation x l : sort_insert comparefn x l ≡ₚ x :: l.
Proof.
  induction l as [|y l IH]; simpl; [done|].
  case_decide; [done|]. rewrite IH. apply Permutation_swap.
Qed.

Lemma Array_sort_Permutation l : Array_sort comparefn l ≡ₚ l.
Proof.
  induction l as [|x l IH]; simpl; [done|].
  by rewrite sort_insert_Permutation, IH.
Qed.

Lemma Array_sort_length l : length (Array_sort comparefn l) = length l.
Proof. by rewrite Array_sort_Permutation. Qed.

(** Stability: elements that the comparison cannot tell apart keep
    their relative order. *)
Lemma sort_insert_filter (P : A → Prop) `{!∀ a, Decision (P a)} x l :
  (∀ a b, P a → P b → comparefn a b ≤ 0) →
  filter P (sort_insert comparefn x l) = filter P (x :: l).
Proof.
  intros Hsame. induction l as [|y l IH]; simpl; [done|].
  case_decide as Hxy; [done|].
  rewrite (filter_cons _ y), (filter_cons _ x), (filter_cons _ y), IH.
  rewrite (filter_cons _ x).
  destruct (decide (P y)) as [Hy|Hy]; destruct (decide (P x)) as [Hx|Hx];
    try done.
  destruct Hxy. by apply Hsame.
Qed.

Lemma Array_sort_stable (P : A → Prop) `{!∀ a, Decision (P a)} l :
  (∀ a b, P a → P b → comparefn a b ≤ 0) →
  filter P (Array_sort comparefn l) = filter P l.
Proof.
  intros Hsame. induction l as [|x l IH]; simpl; [done|].
  rewrite sort_insert_filter by done.
  by rewrite !filter_cons, IH.
Qed.

(** With a consistent comparison the result is sorted. *)
Context (R : relation A) (HR : ∀ a b, R a b ↔ comparefn a b ≤ 0).

Lemma sort_insert_sorted `{!Transitive R, !Total R} x l :
  StronglySorted R l → StronglySorted R (sort_insert comparefn x l).
Proof.
  induction 1 as [|y l Hl IH Hy]; simpl.
  - repeat constructor.
  - case_decide as Hxy.
    + apply HR in Hxy. constructor; [by constructor|].
      constructor; [done|].
      eapply Forall_impl; [exact Hy|]. intros z Hz. by trans y.
    + constructor; [done|].
      rewrite sort_insert_Permutation. constructor; [|done].
      destruct (total R x y) as [Hxy'|]; [|done].
      destruct Hxy. by apply HR.
Qed.

Lemma Array_sort_sorted `{!Transitive R, !Total R} l :
  StronglySorted R (Array_sort comparefn l).
Proof.
  induction l as [|x l IH]; simpl; [constructor|].
  by apply sort_insert_sorted.
Qed.

(** An array that is in order already is left as it is. *)
Lemma Array_sort_fixed l :
  StronglySorted R l → Array_sort comparefn l = l.
Proof.
  induction 1 as [|x l Hl IH Hx]; simpl; [done|].
  rewrite IH. destruct l as [|y l]; simpl; [done|].
  apply Forall_cons in Hx as [Hxy _]. apply HR in Hxy.
  by rewrite decide_True.
Qed.
End ArraySortFacts.

Lemma Array_slice_prefix {A} (n : nat) (l : list A) :
  Array_slice 0 (Z.of_nat n) l = take n l.
Proof.
  unfold Array_slice, relative_index.
  rewrite !decide_False by lia.
  replace (Z.to_nat (Z.min 0 (Z.of_nat (length l)))) with 0%nat by lia.
  rewrite drop_0.
  destruct (decide (n ≤ length l)%nat) as [Hle|Hgt].
  - f_equal. lia.
  - rewrite !take_ge by lia. done.
Qed.

(** A negative end index drops that many elements from the end. *)
Lemma Array_slice_negative_end {A} (k : nat) (l : list A) :
  (0 < k)%nat →
  Array_slice 0 (- Z.of_nat k) l = take (length l - k) l.
Proof.
  intros Hk. unfold Array_slice, relative_index.
  rewrite (decide_False (P := 0 < 0)) by lia. rewrite decide_True by lia.
  replace (Z.to_nat (Z.min 0 (Z.of_nat (length l)))) with 0%nat by lia.
  rewrite drop_0. f_equal. lia.
Qed.

(** ** The newest posts *)

Global Instance not_older_trans : Transitive not_older.
Proof. unfold not_older. intros a b c ??. lia. Qed.

Global Instance not_older_total : Total not_older.
Proof. unfold not_older. intros a b. lia. Qed.

Lemma not_older_newest_first a b : not_older a b ↔ newest_first a b ≤ 0.
Proof. unfold not_older, newest_first. lia. Qed.

Lemma newest_first_sorted POSTS :
  StronglySorted not_older (Array_sort newest_first POSTS).
Proof. apply (Array_sort_sorted _ _ not_older_newest_first). Qed.

(** X4. Posts of one and the same date keep the order they had. *)
Lemma getNewPosts_same_date_order (num d : Z) (POSTS : list Post) :
  filter (λ p, date p = d) (getNewPosts num POSTS).1
  = filter (λ p, date p = d) POSTS.
Proof.
  simpl. apply Array_sort_stable.
  intros a b Ha Hb. unfold newest_first. lia.
Qed.

(** X3. The post shown first is at least as recent as every post of the
    collection. *)
Lemma getNewPosts_head_latest (n : nat) (POSTS : list Post) (top p : Post) :
  head (getNewPosts (Z.of_nat n) POSTS).2 = Some top →
  p ∈ POSTS → date p ≤ date top.
Proof.
  simpl. rewrite Array_slice_prefix. intros Htop Hp.
  pose proof (newest_first_sorted POSTS) as Hsorted.
  rewrite <- (Array_sort_Permutation newest_first) in Hp.
  destruct (Array_sort newest_first POSTS) as [|q l]; [by destruct n|].
  destruct n as [|n]; [done|]. simpl in Htop. injection Htop as ->.
  apply StronglySorted_inv in Hsorted as [_ Hall].
  apply elem_of_cons in Hp as [->|Hp]; [lia|].
  rewrite Forall_forall in Hall. by apply Hall.
Qed.

(** X6. With a negative argument [slice] counts from the end: the call
    returns all posts but the last [k] of the sorted array. *)
Lemma getNewPosts_negative (k : nat) (POSTS : list Post) :
  (0 < k)%nat →
  (getNewPosts (- Z.of_nat k) POSTS).2
  = take (length POSTS - k) (Array_sort newest_first POSTS).
Proof.
  intros Hk. simpl. rewrite Array_slice_negative_end by done.
  by rewrite Array_sort_length.
Qed.

(** C2. For every count [n] and every Post collection, [getNewPosts]
    returns the first [n] posts of the collection sorted in descending
    order of date: the array it slices is a rearrangement of the
    collection in which no post stands before a more recent one. *)
Theorem getNewPosts_sorts_then_slices (n : nat) (POSTS : list Post) :
  ∃ sorted : list Post,
    sorted ≡ₚ POSTS ∧
    StronglySorted not_older sorted ∧
    (getNewPosts (Z.of_nat n) POSTS).2 = take n sorted.
Proof.
  exists (Array_sort newest_first POSTS). split; [|split].
  - apply Array_sort_Permutation.
  - apply newest_first_sorted.
  - simpl. apply Array_slice_prefix.
Qed.

(** C3, as stated, fails.  Where [__POSTS__] denotes the array the
    configuration built, one call of the widget reorders that array:
    it held the older post first and holds the newer post first
    afterwards. *)
Lemma getNewPosts_reorders_shared_array :
  sharedHeap 0%nat = [postA; postB] ∧
  (getNewPosts_in sharedHeap 0 1).1 0%nat = [postB; postA] ∧
  (getNewPosts_in sharedHeap 0 1).1 0%nat ≠ sharedHeap 0%nat.
Proof. split; [reflexivity|]. split; [reflexivity|discriminate]. Qed.

(** Where the module reads a copy of its own, the copy is reordered
    and the array of the configuration is not. *)
Example getNewPosts_reorders_copy_only :
  (getNewPosts_in bundledHeap 1 1).1 1%nat = [postB; postA] ∧
  (getNewPosts_in bundledHeap 1 1).1 0%nat = [postA; postB].
Proof. split; reflexivity. Qed.

(** C3, amended. [getNewPosts] neither adds, drops nor alters a post,
    but it sorts in place the array object that [__POSTS__] denotes
    where it runs: after the call that array holds the same posts in
    descending order of date, posts of equal date in the relative order
    they had, so it is in its original order exactly when that order
    was descending already, and any further call leaves it as it is.
    Every other array object, such as the array of the configuration
    module when the page reads a copy of the constant, is left as it
    was. *)
Theorem getNewPosts_heap_effect (heap : nat → list Post) (ref : nat)
    (num num' : Z) :
  let heap' := (getNewPosts_in heap ref num).1 in
  heap' ref ≡ₚ heap ref ∧
  StronglySorted not_older (heap' ref) ∧
  (∀ d : Z, filter (λ p, date p = d) (heap' ref)
            = filter (λ p, date p = d) (heap ref)) ∧
  (heap' ref = heap ref ↔ StronglySorted not_older (heap ref)) ∧
  (∀ other : nat, other ≠ ref → heap' other = heap other) ∧
  (∀ r : nat, (getNewPosts_in heap' ref num').1 r = heap' r).
Proof.
  unfold getNewPosts_in, getNewPosts. simpl.
  rewrite !fn_lookup_insert.
  split; [apply Array_sort_Permutation|].
  split; [apply newest_first_sorted|].
  split.
  { intros d. apply Array_sort_stable.
    intros a b Ha Hb. unfold newest_first. lia. }
  split.
  { split.
    - intros <-. apply newest_first_sorted.
    - apply (Array_sort_fixed _ _ not_older_newest_first). }
  split.
  { intros other Hother. by apply fn_lookup_insert_ne. }
  intros r.
  rewrite (Array_sort_fixed _ _ not_older_newest_first
             (Array_sort newest_first (heap ref)))
    by apply newest_first_sorted.
  destruct (decide (ref = r)) as [->|Hne].
  - by rewrite !fn_lookup_insert.
  - by rewrite !fn_lookup_insert_ne.
Qed.

(** ** The collection build *)

Section PostsActionFacts.
Context {V : Type} (parseFileToPost : string → Completion V Post).

Lemma first_failure_None files :
  first_failure parseFileToPost files = None →
  ∃ posts, Array_map parseFileToPost files = Normal posts.
Proof.
  induction files as [|f files IH]; simpl; [by eexists|].
  completion_simpl.
  destruct (parseFileToPost f) as [p|v]; simpl; [|done].
  intros [posts ->]%IH. by eexists.
Qed.

(** The traversal stops at the first file that is rejected: the files
    before it were accepted, and its error is the one thrown. *)
Lemma first_failure_Some files f v :
  first_failure parseFileToPost files = Some (f, v) →
  Array_map parseFileToPost files = Throw v ∧
  ∃ before after,
    files = (before ++ f :: after)%list ∧
    Forall (λ g, ∃ p, parseFileToPost g = Normal p) before ∧
    parseFileToPost f = Throw v.
Proof.
  induction files as [|g files IH]; simpl; [done|].
  completion_simpl.
  destruct (parseFileToPost g) as [p|w] eqn:Hg; simpl.
  - intros [Hmap (before & after & -> & Hbefore & Hf)]%IH. split.
    + by rewrite Hmap.
    + exists (g :: before), after. split; [done|].
      split; [|done]. constructor; [by eexists|done].
  - intros [= -> ->]. split; [done|].
    exists [], files. by repeat split.
Qed.

Lemma first_failure_exists files f v :
  f ∈ files → parseFileToPost f = Throw v →
  is_Some (first_failure parseFileToPost files).
Proof.
  intros Hin Hf. induction files as [|g files IH]; simpl.
  - by apply elem_of_nil in Hin.
  - destruct (parseFileToPost g) as [p|w] eqn:Hg; [|by eexists].
    apply elem_of_cons in Hin as [->|Hin]; [congruence|by apply IH].
Qed.

(** The order in which the files are visited decides neither whether
    the traversal succeeds nor which posts it produces. *)
Lemma Array_map_Permutation files1 files2 :
  files1 ≡ₚ files2 →
  Completion_rel (λ _ _, True) (≡ₚ)
    (Array_map parseFileToPost files1) (Array_map parseFileToPost files2).
Proof.
  induction 1 as [|f l1 l2 _ IH|f g l|l1 l2 l3 _ IH1 _ IH2]; simpl.
  - done.
  - completion_simpl.
    destruct (parseFileToPost f); simpl; [|done].
    destruct (Array_map parseFileToPost l1), (Array_map parseFileToPost l2);
      simpl in *; try done. by constructor.
  - completion_simpl.
    destruct (parseFileToPost f), (parseFileToPost g),
      (Array_map parseFileToPost l); simpl; try done.
    apply Permutation_swap.
  - destruct (Array_map parseFileToPost l1), (Array_map parseFileToPost l2),
      (Array_map parseFileToPost l3); simpl in *; try done.
    by etrans.
Qed.
End PostsActionFacts.

(** C1, as stated, fails.  In a tree whose second file lacks its date
    the build is aborted by the error of that file, but what
    [postsAction] throws is a fresh [Error] with a fixed message: the
    file-level error is not its cause and the path is not in it. *)
Lemma postsAction_drops_file_error :
  let parse := parseFile isoDate brokenTree in
  let r := (postsAction (λ _, Normal [fileA; fileB]) parse []).2 in
  first_failure parse [fileA; fileB]
    = Some (fileB, MissingRequiredField "date" fileB) ∧
  r = Throw {| name := "Error"; message := "Failed to retrieve article";
               cause := None |} ∧
  includes fileB "Failed to retrieve article" = false ∧
  ¬ wraps_file_error (MissingRequiredField "date" fileB) fileB r.
Proof.
  split; [by vm_compute|]. split; [by vm_compute|]. split; [by vm_compute|].
  intros (err & Herr & Hcause & _). vm_compute in Herr.
  injection Herr as <-. discriminate.
Qed.

(** C1, amended. For every content tree containing at least one file
    whose parsing or post-building fails, [postsAction] fails and
    returns no partial collection: the walk stops at the first such
    file, the error of that file is written to the console, and the
    exception thrown is a plain [Error] with the fixed message
    "Failed to retrieve article", without cause and without the path. *)
Theorem postsAction_fail_fast {V} (getAllMarkdownFiles : unit → Completion V (list string))
    (parseFileToPost : string → Completion V Post)
    (files : list string) (console : list V) :
  getAllMarkdownFiles () = Normal files →
  (∃ f v, f ∈ files ∧ parseFileToPost f = Throw v) →
  ∃ before f after v,
    files = (before ++ f :: after)%list ∧
    Forall (λ g, ∃ p, parseFileToPost g = Normal p) before ∧
    parseFileToPost f = Throw v ∧
    postsAction getAllMarkdownFiles parseFileToPost console
    = ((console ++ [v])%list,
       Throw {| name := "Error"; message := "Failed to retrieve article";
                cause := None |}).
Proof.
  intros Hfiles (f0 & v0 & Hin & Hf0).
  destruct (first_failure_exists parseFileToPost files f0 v0 Hin Hf0)
    as [[f v] Hfirst].
  apply first_failure_Some in Hfirst
    as (Hmap & before & after & -> & Hbefore & Hf).
  exists before, f, after, v. repeat split; try done.
  unfold postsAction. rewrite Hfiles. completion_simpl. by rewrite Hmap.
Qed.

Lemma postsAction_fail_fast_witness :
  ∃ before f after v,
    [fileA; fileB] = (before ++ f :: after)%list ∧
    Forall (λ g, ∃ p, parseFile isoDate brokenTree g = Normal p) before ∧
    parseFile isoDate brokenTree f = Throw v ∧
    postsAction (λ _, Normal [fileA; fileB]) (parseFile isoDate brokenTree) []
    = (([] ++ [v])%list,
       Throw {| name := "Error"; message := "Failed to retrieve article";
                cause := None |}).
Proof.
  apply (postsAction_fail_fast (λ _, Normal [fileA; fileB])
           (parseFile isoDate brokenTree) [fileA; fileB] []).
  - reflexivity.
  - exists fileB, (MissingRequiredField "date" fileB). split.
    + apply list_elem_of_In. simpl. right. left. reflexivity.
    + vm_compute. reflexivity.
Defined.

(** When every file is accepted the build returns one post per file, in
    the order of the walk, and leaves the console alone. *)
Lemma postsAction_success {V} (getAllMarkdownFiles : unit → Completion V (list string))
    (parseFileToPost : string → Completion V Post)
    (files : list string) (posts : list Post) (console : list V) :
  getAllMarkdownFiles () = Normal files →
  Forall2 (λ f p, parseFileToPost f = Normal p) files posts →
  postsAction getAllMarkdownFiles parseFileToPost console = (console, Normal posts).
Proof.
  intros Hfiles Hall. apply Array_map_Normal in Hall.
  unfold postsAction. rewrite Hfiles. completion_simpl. by rewrite Hall.
Qed.

(** C9. Building the collection twice from the same unchanged file tree
    yields two collections that are equal as unordered sets: whatever
    the console held and in whatever order the two walks listed the
    files, both builds return the same posts up to order, or both abort
    with the same error. *)
Theorem postsAction_idempotent {V}
    (getAllMarkdownFiles1 getAllMarkdownFiles2 : unit → Completion V (list string))
    (parseFileToPost : string → Completion V Post)
    (console1 console2 : list V) :
  same_listing (getAllMarkdownFiles1 ()) (getAllMarkdownFiles2 ()) →
  same_build (postsAction getAllMarkdownFiles1 parseFileToPost console1).2
             (postsAction getAllMarkdownFiles2 parseFileToPost console2).2.
Proof.
  unfold same_listing, same_build, postsAction. intros Hsame.
  destruct (getAllMarkdownFiles1 ()) as [files1|v1],
    (getAllMarkdownFiles2 ()) as [files2|v2]; simpl in *; try done.
  completion_simpl.
  pose proof (Array_map_Permutation parseFileToPost files1 files2 Hsame) as Hmap.
  destruct (Array_map parseFileToPost files1),
    (Array_map parseFileToPost files2); simpl in *; done.
Qed.

Lemma postsAction_idempotent_witness :
  same_build
    (postsAction (λ _, Normal [fileA; fileB]) (parseFile isoDate goodTree) []).2
    (postsAction (λ _, Normal [fileB; fileA]) (parseFile isoDate goodTree)
       [InvalidDateFormat fileA]).2.
Proof.
  apply (postsAction_idempotent (λ _, Normal [fileA; fileB])
           (λ _, Normal [fileB; fileA]) (parseFile isoDate goodTree)
           [] [InvalidDateFormat fileA]).
  simpl. apply Permutation_swap.
Defined.

(** ** Tags *)

Lemma filter_Forall_id {A} (P : A → Prop) `{!∀ a, Decision (P a)} (l : list A) :
  Forall P l → filter P l = l.
Proof.
  induction 1 as [|x l Hx _ IH]; [done|].
  by rewrite filter_cons_True, IH.
Qed.

Lemma filter_eq_NoDup {A} `{!EqDecision A} (x : A) (l : list A) :
  NoDup l → x ∈ l → filter (λ y, y = x) l = [x].
Proof.
  induction 1 as [|y l Hy Hl IH]; intros Hin.
  - by apply elem_of_nil in Hin.
  - apply elem_of_cons in Hin as [->|Hin].
    + rewrite filter_cons_True by done. f_equal.
      induction l as [|z l IHl]; [done|].
      apply not_elem_of_cons in Hy as [Hyz Hy].
      apply NoDup_cons in Hl as [_ Hl].
      rewrite filter_cons_False by congruence. apply IHl; [done|done|].
      intros Hin. by destruct Hy.
    + rewrite filter_cons_False; [by apply IH|].
      intros ->. by destruct Hy.
Qed.

Lemma elem_of_dedupe l x : x ∈ dedupe l ↔ x ∈ l.
Proof.
  induction l as [|y l IH]; simpl; [done|].
  rewrite !elem_of_cons, list_elem_of_filter, IH.
  destruct (decide (x = y)) as [->|Hne]; [by split; left|].
  split.
  - intros [?|[_ ?]]; [by left|by right].
  - intros [?|?]; [by left|by right].
Qed.

Lemma NoDup_dedupe l : NoDup (dedupe l).
Proof.
  induction l as [|y l IH]; simpl; [constructor|].
  constructor.
  - rewrite list_elem_of_filter. by intros [Hne _].
  - by apply NoDup_filter.
Qed.

(** A list without duplicates is returned unchanged. *)
Lemma dedupe_NoDup l : NoDup l → dedupe l = l.
Proof.
  induction 1 as [|y l Hy Hl IH]; simpl; [done|].
  rewrite IH. f_equal. apply filter_Forall_id.
  apply Forall_forall. intros x Hx ->. by destruct Hy.
Qed.

Lemma default_compare_le a b : String.le a b ↔ default_compare a b ≤ 0.
Proof.
  unfold String.le, String.leb, default_compare.
  destruct (String.compare a b); simpl; split; (done || lia).
Qed.

Lemma elem_of_tagsAction posts tag :
  tag ∈ tagsAction posts ↔ ∃ p, p ∈ posts ∧ tag ∈ tags p.
Proof.
  unfold tagsAction.
  rewrite Array_sort_Permutation, elem_of_dedupe, list_elem_of_bind.
  split; intros (p & H1 & H2); by exists p.
Qed.

Lemma NoDup_tagsAction posts : NoDup (tagsAction posts).
Proof.
  unfold tagsAction. rewrite Array_sort_Permutation. apply NoDup_dedupe.
Qed.

Lemma tagsAction_sorted posts : StronglySorted String.le (tagsAction posts).
Proof. apply (Array_sort_sorted _ _ default_compare_le). Qed.

(** Sortedness, freedom from duplicates and the set of members pin the
    result down: no other list meets the contract. *)
Lemma tagsAction_unique posts (l : list string) :
  StronglySorted String.le l → NoDup l →
  (∀ tag, tag ∈ l ↔ ∃ p, p ∈ posts ∧ tag ∈ tags p) →
  l = tagsAction posts.
Proof.
  intros Hsorted Hnodup Hmem.
  apply (StronglySorted_unique String.le); [done|apply tagsAction_sorted|].
  apply NoDup_Permutation; [done|apply NoDup_tagsAction|].
  intros tag. by rewrite Hmem, elem_of_tagsAction.
Qed.

(** A post without tags can be taken out of the collection without
    changing the tag set. *)
Lemma tagsAction_untagged before p after :
  tags p = [] →
  tagsAction (before ++ p :: after) = tagsAction (before ++ after).
Proof.
  intros Hp. unfold tagsAction.
  by rewrite !bind_app, bind_cons, Hp.
Qed.

(** C5. For every Post collection the Tag Extractor returns the sorted,
    duplicate-free set of all tags used by any post; a post with zero
    tags contributes nothing, an empty collection yields the empty tag
    set, and posts tagged [go, rust] and [rust] yield exactly
    [go, rust]. *)
Theorem tagsAction_sorted_set (posts : list Post) :
  StronglySorted String.le (tagsAction posts) ∧
  NoDup (tagsAction posts) ∧
  (∀ tag, tag ∈ tagsAction posts ↔ ∃ p, p ∈ posts ∧ tag ∈ tags p) ∧
  (∀ before p after, posts = (before ++ p :: after)%list → tags p = [] →
     tagsAction posts = tagsAction (before ++ after)) ∧
  tagsAction [] = [] ∧
  (∀ p q, tags p = ["go"; "rust"] → tags q = ["rust"] →
     tagsAction [p; q] = ["go"; "rust"]).
Proof.
  split; [apply tagsAction_sorted|].
  split; [apply NoDup_tagsAction|].
  split; [apply elem_of_tagsAction|].
  split; [intros before p after -> Hp; by apply tagsAction_untagged|].
  split; [done|].
  intros p q Hp Hq. unfold tagsAction. simpl. by rewrite Hp, Hq.
Qed.

(** ** Tag routes *)

Lemma tag_entry_param tag : params (tag_entry tag) !! "tag" = Some tag.
Proof. unfold tag_entry. simpl. apply lookup_singleton_eq. Qed.

Global Instance tag_entry_inj : Inj (=) (=) tag_entry.
Proof.
  intros t1 t2 Heq.
  assert (params (tag_entry t1) !! "tag" = params (tag_entry t2) !! "tag")
    as Hlookup by by rewrite Heq.
  rewrite !tag_entry_param in Hlookup. congruence.
Qed.

(** The only route parameter of an entry is [tag]. *)
Lemma tag_entry_dom tag : dom (params (tag_entry tag)) = {[ "tag" ]}.
Proof. unfold tag_entry. simpl. apply dom_singleton_L. Qed.

Lemma paths_lookup (tags : list string) (i : nat) :
  paths tags !! i = tag_entry <$> tags !! i.
Proof. unfold paths. apply list_lookup_fmap. Qed.

Lemma paths_filter_tag (tags : list string) (tag : string) :
  filter (λ e, params e !! "tag" = Some tag) (paths tags)
  = paths (filter (λ t, t = tag) tags).
Proof.
  unfold paths. induction tags as [|t tags IH]; [done|].
  rewrite fmap_cons, !filter_cons, IH, tag_entry_param.
  destruct (decide (Some t = Some tag)) as [[= ->]|Hne].
  - by rewrite decide_True.
  - rewrite decide_False; [done|]. intros ->. by destruct Hne.
Qed.

(** C10. For every global tags array, [paths()] returns a list of the
    same length whose i-th entry has [params.tag] equal to the i-th
    element of the array, in the same order; it removes no duplicates,
    so its entries are distinct if and only if the array is
    duplicate-free. *)
Theorem paths_pointwise (tags : list string) :
  length (paths tags) = length tags ∧
  (∀ (i : nat) (tag : string), tags !! i = Some tag →
     ∃ e, paths tags !! i = Some e ∧ params e !! "tag" = Some tag) ∧
  (∀ (i : nat), tags !! i = None → paths tags !! i = None) ∧
  (NoDup (paths tags) ↔ NoDup tags).
Proof.
  split; [apply length_fmap|]. split; [|split].
  - intros i tag Hi. exists (tag_entry tag).
    rewrite paths_lookup, Hi. split; [done|apply tag_entry_param].
  - intros i Hi. by rewrite paths_lookup, Hi.
  - unfold paths. split.
    + apply NoDup_fmap_1.
    + apply (NoDup_fmap_2 tag_entry).
Qed.

(** C6. For every tag set produced by the Tag Extractor, the tag-page
    planner returns exactly one plan entry per distinct tag, each entry
    carrying that tag as its route parameter, and no entry carries
    anything else: [tag] is the only parameter, there is no page
    number. *)
Theorem paths_one_entry_per_tag (posts : list Post) :
  let plan := paths (tagsAction posts) in
  length plan = length (tagsAction posts) ∧
  NoDup plan ∧
  (∀ tag, (∃ p, p ∈ posts ∧ tag ∈ tags p) →
     filter (λ e, params e !! "tag" = Some tag) plan = [tag_entry tag]) ∧
  (∀ e, e ∈ plan →
     ∃ tag, (∃ p, p ∈ posts ∧ tag ∈ tags p) ∧
            params e = {[ "tag" := tag ]} ∧
            dom (params e) = {[ "tag" ]} ∧
            params e !! "page" = None).
Proof.
  simpl. split; [apply length_fmap|]. split; [|split].
  - apply (NoDup_fmap_2 tag_entry), NoDup_tagsAction.
  - intros tag Hused. apply elem_of_tagsAction in Hused.
    rewrite paths_filter_tag.
    by rewrite (filter_eq_NoDup tag _ (NoDup_tagsAction posts) Hused).
  - intros e He. unfold paths in He.
    apply list_elem_of_fmap in He as (tag & -> & Htag).
    exists tag. split; [by apply elem_of_tagsAction|].
    split; [done|]. split; [apply tag_entry_dom|].
    unfold tag_entry. simpl. by apply lookup_singleton_ne.
Qed.

(** ** Listing pages *)

Lemma pageTotal_empty (pageSize : nat) : (0 < pageSize)%nat → pageTotal 0 pageSize = 1%nat.
Proof.
  intros Hs. unfold pageTotal.
  rewrite Nat.div_small by lia. done.
Qed.

(** For a collection that is not empty the number of pages is the least
    [k] with [count ≤ k * pageSize]. *)
Lemma pageTotal_ceil (count pageSize : nat) :
  (0 < pageSize)%nat → (0 < count)%nat →
  ((pageTotal count pageSize - 1) * pageSize < count
   ∧ count ≤ pageTotal count pageSize * pageSize)%nat.
Proof.
  intros Hs Hc. unfold pageTotal.
  pose proof (Nat.div_mod_eq (count + pageSize - 1) pageSize) as Hdiv.
  pose proof (Nat.mod_upper_bound (count + pageSize - 1) pageSize) as Hmod.
  set (q := ((count + pageSize - 1) / pageSize)%nat) in *.
  set (r := ((count + pageSize - 1) `mod` pageSize)%nat) in *.
  assert (1 ≤ q)%nat as Hq.
  { destruct q as [|q]; [|lia]. lia. }
  rewrite Nat.max_r by done. nia.
Qed.

(** C4. For every post count and every positive page size the
    Pagination Planner returns the ordered page numbers
    [1 .. ceil(count / pageSize)], except that an empty collection
    still gets the single page [1]; 25 posts in pages of 10 give
    [1, 2, 3]. *)
Theorem paginationPlan_pages (count pageSize : nat) :
  (0 < pageSize)%nat →
  ∃ last : nat,
    paginationPlan count pageSize = seq 1 last ∧
    (count = 0%nat → last = 1%nat) ∧
    ((0 < count)%nat →
       ((last - 1) * pageSize < count ∧ count ≤ last * pageSize)%nat) ∧
    paginationPlan 0 pageSize = [1%nat] ∧
    paginationPlan 25 10 = [1%nat; 2%nat; 3%nat].
Proof.
  intros Hs. exists (pageTotal count pageSize).
  split; [done|]. split; [|split; [|split]].
  - intros ->. by apply pageTotal_empty.
  - by apply pageTotal_ceil.
  - unfold paginationPlan. by rewrite pageTotal_empty.
  - reflexivity.
Qed.

Lemma paginationPlan_pages_witness :
  ∃ last : nat,
    paginationPlan 25 10 = seq 1 last ∧
    (25%nat = 0%nat → last = 1%nat) ∧
    ((0 < 25)%nat → ((last - 1) * 10 < 25 ∧ 25 ≤ last * 10)%nat) ∧
    paginationPlan 0 10 = [1%nat] ∧
    paginationPlan 25 10 = [1%nat; 2%nat; 3%nat].
Proof. apply (paginationPlan_pages 25 10). lia. Defined.

(** ** Trimming *)

Lemma trimStart_starts s : starts_with_space (trimStart s) = false.
Proof.
  induction s as [|a s IH]; simpl; [done|].
  destruct (Ascii.is_space a) eqn:Ha; [done|]. simpl. done.
Qed.

Lemma trimEnd_ends s : ends_with_space (trimEnd s) = false.
Proof.
  induction s as [|a s IH]; simpl; [done|].
  destruct (trimEnd s) as [|b t]; simpl in *.
  - destruct (Ascii.is_space a) eqn:Ha; simpl; done.
  - done.
Qed.

Lemma trimEnd_starts s :
  starts_with_space s = false → starts_with_space (trimEnd s) = false.
Proof.
  destruct s as [|a s]; simpl; [done|]. intros Ha.
  destruct (trimEnd s); [by rewrite Ha|done].
Qed.

Lemma trimStart_fixed s : starts_with_space s = false → trimStart s = s.
Proof. destruct s as [|a s]; simpl; [done|]. by intros ->. Qed.

Lemma trimEnd_fixed s : ends_with_space s = false → trimEnd s = s.
Proof.
  induction s as [|a s IH]; simpl; [done|].
  destruct s as [|b s].
  - simpl. by intros ->.
  - intros Hs. by rewrite IH.
Qed.

(** What [trim] cuts off is white space, and nothing but the two ends
    is cut. *)
Lemma trimStart_cut s :
  ∃ blanks, s = blanks +:+ trimStart s ∧ all_space blanks = true.
Proof.
  induction s as [|a s (blanks & Hs & Hblanks)]; simpl.
  - by exists "".
  - destruct (Ascii.is_space a) eqn:Ha.
    + exists (String a blanks). simpl. rewrite Ha, Hblanks. split; [|done].
      change (String a s = String a (blanks +:+ trimStart s)). by rewrite <- Hs.
    + by exists "".
Qed.

Lemma trimEnd_cut s :
  ∃ blanks, s = trimEnd s +:+ blanks ∧ all_space blanks = true.
Proof.
  induction s as [|a s (blanks & Hs & Hblanks)]; simpl.
  - by exists "".
  - destruct (trimEnd s) as [|b t] eqn:Ht.
    + destruct (Ascii.is_space a) eqn:Ha.
      * exists (String a blanks). simpl. rewrite Ha, Hblanks. split; [|done].
        change ("" +:+ blanks) with blanks in Hs. by rewrite <- Hs.
      * exists blanks. split; [|done].
        change (String a s = String a ("" +:+ blanks)). by rewrite <- Hs.
    + exists blanks. split; [|done].
      change (String a s = String a (String b t +:+ blanks)). by rewrite <- Hs.
Qed.

Lemma trim_trimmed s : trimmed (trim s).
Proof.
  split.
  - apply trimEnd_starts, trimStart_starts.
  - apply trimEnd_ends.
Qed.

Lemma trimmed_fixed s : trimmed s ↔ trim s = s.
Proof.
  split.
  - intros [Hstart Hend]. unfold trim.
    by rewrite (trimStart_fixed _ Hstart), (trimEnd_fixed _ Hend).
  - intros <-. apply trim_trimmed.
Qed.

Lemma trim_cut s :
  ∃ left right,
    s = left +:+ trim s +:+ right
    ∧ all_space left = true ∧ all_space right = true.
Proof.
  destruct (trimStart_cut s) as (left & Hleft & Hl).
  destruct (trimEnd_cut (trimStart s)) as (right & Hright & Hr).
  exists left, right. unfold trim. by rewrite <- Hright, <- Hleft.
Qed.

(** ** The post model builder *)

Lemma normalizeTags_NoDup raw : NoDup (normalizeTags raw).
Proof. apply NoDup_dedupe. Qed.

Lemma elem_of_normalizeTags raw tag :
  tag ∈ normalizeTags raw ↔ ∃ t, t ∈ default [] raw ∧ tag = trim t.
Proof.
  unfold normalizeTags. rewrite elem_of_dedupe, list_elem_of_fmap.
  split; intros (t & H1 & H2); by exists t.
Qed.

Lemma normalizeTags_trimmed raw : Forall trimmed (normalizeTags raw).
Proof.
  apply Forall_forall. intros tag (t & _ & ->)%elem_of_normalizeTags.
  apply trim_trimmed.
Qed.

(** C7. For every parsed front-matter mapping with [date] and [title]
    present the Post Model Builder produces a Post (whenever the date is
    a valid one) whose tags are trimmed of surrounding white space and
    free of duplicates: they are exactly the trimmed source tags, each
    once, so [ts] and [ ts ] collapse to [ts], and an absent [tags]
    field yields the empty collection. *)
Theorem buildPost_tags (parseDate : string → option Z)
    (fm : FrontMatter) (file d t : string) :
  fm_date fm = Some d → fm_title fm = Some t →
  (is_Some (parseDate d) →
     ∃ post, buildPost parseDate fm file = Normal post) ∧
  (∀ post, buildPost parseDate fm file = Normal post →
     NoDup (tags post) ∧
     Forall trimmed (tags post) ∧
     (∀ tag, tag ∈ tags post ↔ ∃ raw, raw ∈ default [] (fm_tags fm) ∧ tag = trim raw) ∧
     (fm_tags fm = None → tags post = []) ∧
     (fm_tags fm = Some ["ts"; " ts "] → tags post = ["ts"])).
Proof.
  intros Hd Ht. unfold buildPost. rewrite Hd, Ht. split.
  - intros [instant ->]. by eexists.
  - intros post Hpost. destruct (parseDate d) as [instant|]; [|done].
    injection Hpost as <-. simpl. split; [apply normalizeTags_NoDup|].
    split; [apply normalizeTags_trimmed|].
    split; [apply elem_of_normalizeTags|].
    split; by intros ->.
Qed.

Lemma buildPost_tags_witness :
  (is_Some (isoDate "2025-07-07") →
     ∃ post, buildPost isoDate frontMatterSpaced fileA = Normal post) ∧
  (∀ post, buildPost isoDate frontMatterSpaced fileA = Normal post →
     NoDup (tags post) ∧
     Forall trimmed (tags post) ∧
     (∀ tag, tag ∈ tags post
        ↔ ∃ raw, raw ∈ default [] (fm_tags frontMatterSpaced) ∧ tag = trim raw) ∧
     (fm_tags frontMatterSpaced = None → tags post = []) ∧
     (fm_tags frontMatterSpaced = Some ["ts"; " ts "] → tags post = ["ts"])).
Proof.
  apply (buildPost_tags isoDate frontMatterSpaced fileA "2025-07-07" "A");
    reflexivity.
Defined.

(** The post built from the block with the repeated tag. *)
Lemma buildPost_spaced :
  buildPost isoDate frontMatterSpaced fileA
  = Normal {| path := fileA; date := 1751846400000; title := "A";
              description := ""; tags := ["ts"];
              prev := None; next := Some NavDisabled |}.
Proof. by vm_compute. Qed.

(** An unparsable date is reported as such, once both required fields
    are there. *)
Lemma buildPost_invalid_date (parseDate : string → option Z)
    (fm : FrontMatter) (file d t : string) :
  fm_date fm = Some d → fm_title fm = Some t → parseDate d = None →
  buildPost parseDate fm file = Throw (InvalidDateFormat file).
Proof. intros Hd Ht Hp. unfold buildPost. by rewrite Hd, Ht, Hp. Qed.

(** C8. For every parsed front-matter mapping missing the [date] field
    or the [title] field the Post Model Builder fails with
    [MissingRequiredField]; the error names a field that is indeed
    missing, and the file, and whenever [date] is missing it names
    [date]. *)
Theorem buildPost_missing_field (parseDate : string → option Z)
    (fm : FrontMatter) (file : string) :
  fm_date fm = None ∨ fm_title fm = None →
  ∃ field,
    buildPost parseDate fm file = Throw (MissingRequiredField field file) ∧
    error_file (MissingRequiredField field file) = file ∧
    ((field = "date" ∧ fm_date fm = None)
     ∨ (field = "title" ∧ fm_title fm = None)) ∧
    (fm_date fm = None → field = "date").
Proof.
  intros Hmissing. unfold buildPost.
  destruct (fm_date fm) as [d|] eqn:Hd.
  - destruct Hmissing as [|Ht]; [done|]. rewrite Ht.
    exists "title". split; [done|]. split; [done|]. split; [by right|done].
  - exists "date". split; [done|]. split; [done|]. split; [by left|done].
Qed.

Lemma buildPost_missing_field_witness :
  ∃ field,
    buildPost isoDate frontMatterUndated fileB
      = Throw (MissingRequiredField field fileB) ∧
    error_file (MissingRequiredField field fileB) = fileB ∧
    ((field = "date" ∧ fm_date frontMatterUndated = None)
     ∨ (field = "title" ∧ fm_title frontMatterUndated = None)) ∧
    (fm_date frontMatterUndated = None → field = "date").
Proof.
  apply (buildPost_missing_field isoDate frontMatterUndated fileB).
  left. reflexivity.
Defined.

(** ** The two sample trees end to end *)

Example goodTree_posts :
  ∃ posts,
    (postsAction (walk goodTree) (parseFile isoDate goodTree) []).2 = Normal posts ∧
    posts ≡ₚ [postA; postB] ∧
    tagsAction posts = ["generics"; "ts"] ∧
    paginationPlan (length posts) 10 = [1%nat].
Proof.
  eexists. split; [by vm_compute|].
  split; [done|]. split; by vm_compute.
Qed.

(** * Further properties of the code *)

(** ** More on the newest posts *)

Lemma relative_index_range (len i : Z) :
  0 ≤ len → 0 ≤ relative_index len i ≤ len.
Proof. intros Hlen. unfold relative_index. case_decide; lia. Qed.

Lemma Array_slice_from_start {A} (end_ : Z) (l : list A) :
  Array_slice 0 end_ l
  = take (Z.to_nat (relative_index (Z.of_nat (length l)) end_)) l.
Proof.
  unfold Array_slice.
  assert (relative_index (Z.of_nat (length l)) 0 = 0) as ->.
  { unfold relative_index. rewrite decide_False by lia. lia. }
  rewrite drop_0. f_equal. lia.
Qed.

Lemma getNewPosts_head_latest_witness : date postA ≤ date postB.
Proof.
  apply (getNewPosts_head_latest 1 [postA; postB] postB postA).
  - reflexivity.
  - apply list_elem_of_In. simpl. left. reflexivity.
Defined.

Lemma getNewPosts_negative_witness :
  (getNewPosts (- Z.of_nat 1) [postA; postB]).2
  = take (length [postA; postB] - 1) (Array_sort newest_first [postA; postB]).
Proof. apply (getNewPosts_negative 1 [postA; postB]). lia. Defined.

(** X1. How many posts come back: [num] of them when there are that many,
    all of them otherwise; a negative [num] does not give the empty
    list but leaves out that many posts. *)
Theorem getNewPosts_count (num : Z) (POSTS : list Post) :
  (0 ≤ num →
     length (getNewPosts num POSTS).2 = (Z.to_nat num `min` length POSTS)%nat) ∧
  (num < 0 →
     length (getNewPosts num POSTS).2 = (length POSTS - Z.to_nat (- num))%nat).
Proof.
  simpl. rewrite Array_slice_from_start, length_take, Array_sort_length.
  unfold relative_index. split; intros Hnum.
  - rewrite decide_False by lia. lia.
  - rewrite decide_True by lia. lia.
Qed.

(** X2. The call splits the collection in two: what it returns and the
    rest, and nothing in the rest is more recent than anything
    returned.  No post is invented, lost or shown twice. *)
Theorem getNewPosts_selection (num : Z) (POSTS : list Post) :
  ∃ rest : list Post,
    (getNewPosts num POSTS).1 = ((getNewPosts num POSTS).2 ++ rest)%list ∧
    POSTS ≡ₚ ((getNewPosts num POSTS).2 ++ rest)%list ∧
    ∀ p q, p ∈ (getNewPosts num POSTS).2 → q ∈ rest → date q ≤ date p.
Proof.
  simpl. rewrite Array_slice_from_start.
  set (k := Z.to_nat _). set (sorted := Array_sort newest_first POSTS).
  exists (drop k sorted).
  assert (sorted = (take k sorted ++ drop k sorted)%list) as Hsplit
    by by rewrite take_drop.
  split; [done|]. split.
  - rewrite <- Hsplit. symmetry. apply Array_sort_Permutation.
  - intros p q Hp Hq.
    pose proof (newest_first_sorted POSTS) as Hsorted.
    fold sorted in Hsorted. rewrite Hsplit in Hsorted.
    apply (StronglySorted_app_1_elem_of not_older _ _ p q Hsorted Hp Hq).
Qed.

(** X5. When no two posts share a date, the stored order of the collection
    is irrelevant: neither the result nor the state left behind depends
    on it. *)
Theorem getNewPosts_order_independent (num : Z) (POSTS1 POSTS2 : list Post) :
  POSTS1 ≡ₚ POSTS2 → NoDup (date <$> POSTS1) →
  getNewPosts num POSTS1 = getNewPosts num POSTS2.
Proof.
  intros Hperm Hdates.
  assert (Array_sort newest_first POSTS1 = Array_sort newest_first POSTS2) as Heq.
  { apply (StronglySorted_unique_strong not_older);
      [|apply newest_first_sorted..|by rewrite !Array_sort_Permutation].
    intros p q Hp Hq Hpq Hqp.
    rewrite Array_sort_Permutation in Hp.
    rewrite Array_sort_Permutation, <- Hperm in Hq.
    unfold not_older in *.
    apply list_elem_of_lookup in Hp as [i Hi], Hq as [j Hj].
    assert (i = j) as ->.
    { apply (NoDup_lookup (date <$> POSTS1) i j (date p)); [done|..].
      - by rewrite list_lookup_fmap, Hi.
      - rewrite list_lookup_fmap, Hj. simpl. f_equal. lia. }
    congruence. }
  unfold getNewPosts. by rewrite Heq.
Qed.

Lemma getNewPosts_order_independent_witness :
  getNewPosts 1 [postA; postB] = getNewPosts 1 [postB; postA].
Proof.
  apply (getNewPosts_order_independent 1 [postA; postB] [postB; postA]).
  - apply Permutation_swap.
  - apply (bool_decide_unpack _). vm_compute. exact I.
Defined.

(** X7. The newest [n] posts are the first [n] of the newest [m], for
    [n ≤ m]: a longer listing only adds posts at its end. *)
Theorem getNewPosts_extends (n m : nat) (POSTS : list Post) :
  (n ≤ m)%nat →
  (getNewPosts (Z.of_nat n) POSTS).2
  = take n (getNewPosts (Z.of_nat m) POSTS).2.
Proof.
  intros Hnm. simpl. rewrite !Array_slice_prefix, take_take.
  f_equal. lia.
Qed.

Lemma getNewPosts_extends_witness :
  (getNewPosts (Z.of_nat 1) [postA; postB]).2
  = take 1 (getNewPosts (Z.of_nat 2) [postA; postB]).2.
Proof. apply (getNewPosts_extends 1 2 [postA; postB]). lia. Defined.

(** X8. The reordering an earlier call left behind does not show in later
    calls: they return, and leave, what they would have on the original
    collection. *)
Theorem getNewPosts_after_call (num num' : Z) (POSTS : list Post) :
  getNewPosts num' (getNewPosts num POSTS).1 = getNewPosts num' POSTS.
Proof.
  unfold getNewPosts at 1 3. simpl.
  rewrite (Array_sort_fixed _ _ not_older_newest_first
             (Array_sort newest_first POSTS)); [done|].
  apply newest_first_sorted.
Qed.

(** ** More on the collection build *)

Lemma Array_map_stops {V} (parse1 parse2 : string → Completion V Post)
    (before after1 after2 : list string) (f : string) (v : V) :
  (∀ g, g ∈ before → parse1 g = parse2 g) →
  parse1 f = Throw v → parse2 f = Throw v →
  Array_map parse1 (before ++ f :: after1)
  = Array_map parse2 (before ++ f :: after2).
Proof.
  intros Hbefore Hf1 Hf2. induction before as [|g before IH]; simpl.
  - completion_simpl. by rewrite Hf1, Hf2.
  - completion_simpl. rewrite <- (Hbefore g) by by left.
    destruct (parse1 g); simpl; [|done].
    rewrite IH; [done|]. intros h Hh. apply Hbefore. by right.
Qed.

Lemma Array_map_app {V} (parse : string → Completion V Post)
    (files1 files2 : list string) (posts : list Post) :
  Array_map parse (files1 ++ files2) = Normal posts ↔
  ∃ posts1 posts2,
    posts = (posts1 ++ posts2)%list ∧
    Array_map parse files1 = Normal posts1 ∧
    Array_map parse files2 = Normal posts2.
Proof.
  rewrite Array_map_Normal. split.
  - intros (posts1 & posts2 & H1 & H2 & ->)%Forall2_app_inv_l.
    exists posts1, posts2. by rewrite !Array_map_Normal.
  - intros (posts1 & posts2 & -> & H1 & H2).
    apply Array_map_Normal in H1, H2. by apply Forall2_app.
Qed.

(** X9. The build returns exactly when every listed file is accepted; it
    then holds one post per file, in the order of the listing
    (repeated files give repeated posts), and nothing is written to the
    console. *)
Theorem postsAction_returns_iff {V}
    (getAllMarkdownFiles : unit → Completion V (list string))
    (parseFileToPost : string → Completion V Post)
    (files : list string) (posts : list Post) (console : list V) :
  getAllMarkdownFiles () = Normal files →
  postsAction getAllMarkdownFiles parseFileToPost console = (console, Normal posts)
  ↔ Forall2 (λ f p, parseFileToPost f = Normal p) files posts.
Proof.
  intros Hfiles. rewrite <- Array_map_Normal.
  unfold postsAction. rewrite Hfiles. completion_simpl.
  destruct (Array_map parseFileToPost files) as [posts'|v].
  - split; intros [= ->]; done.
  - split; [by intros [=]|done].
Qed.

Lemma postsAction_returns_iff_witness :
  postsAction (λ _, Normal [fileA; fileB]) (parseFile isoDate goodTree) []
    = ([], Normal [postA; postB])
  ↔ Forall2 (λ f p, parseFile isoDate goodTree f = Normal p)
      [fileA; fileB] [postA; postB].
Proof.
  apply (postsAction_returns_iff (λ _, Normal [fileA; fileB])
           (parseFile isoDate goodTree) [fileA; fileB] [postA; postB] []).
  reflexivity.
Defined.

(** X10. There are two outcomes and no third.  Either the build returns and
    the console is untouched, or exactly one value is written to the
    console, the one thrown by the walk or by the first rejected file,
    and the fixed [Error] is thrown, the same for every cause. *)
Theorem postsAction_outcomes {V}
    (getAllMarkdownFiles : unit → Completion V (list string))
    (parseFileToPost : string → Completion V Post) (console : list V) :
  (∃ posts,
     postsAction getAllMarkdownFiles parseFileToPost console
     = (console, Normal posts))
  ∨ (∃ v,
       postsAction getAllMarkdownFiles parseFileToPost console
       = ((console ++ [v])%list,
          Throw {| name := "Error"; message := "Failed to retrieve article";
                   cause := None |})
       ∧ (getAllMarkdownFiles () = Throw v
          ∨ ∃ files f,
              getAllMarkdownFiles () = Normal files ∧
              first_failure parseFileToPost files = Some (f, v))).
Proof.
  unfold postsAction.
  destruct (getAllMarkdownFiles ()) as [files|v] eqn:Hwalk; completion_simpl.
  - destruct (first_failure parseFileToPost files) as [[f v]|] eqn:Hfirst.
    + right. exists v.
      destruct (first_failure_Some _ _ _ _ Hfirst) as [-> _].
      split; [done|]. right. by exists files, f.
    + left. destruct (first_failure_None _ _ Hfirst) as [posts ->].
      by exists posts.
  - right. exists v. split; [done|by left].
Qed.

(** X11. Files listed after a rejected one are never read: which they are
    and what they hold changes neither the error nor the console. *)
Theorem postsAction_ignores_rest {V}
    (parse1 parse2 : string → Completion V Post)
    (before after1 after2 : list string) (f : string) (v : V)
    (console : list V) :
  (∀ g, g ∈ before → parse1 g = parse2 g) →
  parse1 f = Throw v → parse2 f = Throw v →
  postsAction (λ _, Normal (before ++ f :: after1)%list) parse1 console
  = postsAction (λ _, Normal (before ++ f :: after2)%list) parse2 console.
Proof.
  intros Hbefore Hf1 Hf2. unfold postsAction. completion_simpl.
  by rewrite (Array_map_stops parse1 parse2 before after1 after2 f v).
Qed.

Lemma postsAction_ignores_rest_witness :
  postsAction (λ _, Normal ([fileA] ++ fileB :: ["about.md"])%list)
    (parseFile isoDate brokenTree) []
  = postsAction (λ _, Normal ([fileA] ++ fileB :: [])%list)
      (parseFile isoDate (delete "about.md" brokenTree)) [].
Proof.
  apply (postsAction_ignores_rest (parseFile isoDate brokenTree)
           (parseFile isoDate (delete "about.md" brokenTree))
           [fileA] ["about.md"] [] fileB
           (MissingRequiredField "date" fileB) []).
  - intros g Hg. apply list_elem_of_In in Hg. simpl in Hg.
    destruct Hg as [<-|[]]. vm_compute. reflexivity.
  - vm_compute. reflexivity.
  - vm_compute. reflexivity.
Defined.

(** X12. A listing made of two parts builds exactly when both parts build,
    and the collection is then the posts of the first part followed by
    those of the second. *)
Theorem postsAction_app {V} (parseFileToPost : string → Completion V Post)
    (files1 files2 : list string) (posts : list Post) (console : list V) :
  (postsAction (λ _, Normal (files1 ++ files2)%list) parseFileToPost console).2
    = Normal posts
  ↔ ∃ posts1 posts2,
      posts = (posts1 ++ posts2)%list ∧
      (postsAction (λ _, Normal files1) parseFileToPost console).2 = Normal posts1 ∧
      (postsAction (λ _, Normal files2) parseFileToPost console).2 = Normal posts2.
Proof.
  assert (∀ files ps,
    (postsAction (λ _, Normal files) parseFileToPost console).2 = Normal ps
    ↔ Array_map parseFileToPost files = Normal ps) as Hbuild.
  { intros files ps. unfold postsAction. completion_simpl.
    destruct (Array_map parseFileToPost files); simpl; [|done].
    split; by intros [= ->]. }
  rewrite Hbuild, Array_map_app.
  split; intros (posts1 & posts2 & -> & H1 & H2); exists posts1, posts2;
    (split; [done|]); [by rewrite !Hbuild|by rewrite !Hbuild in H1, H2].
Qed.

(** ** More on the tag routes *)

(** X13. Reading the [tag] parameter off every route gives the tags array
    back: nothing is lost, added, renamed or reordered on the way. *)
Theorem paths_round_trip (tags : list string) :
  omap (λ e, params e !! "tag") (paths tags) = tags.
Proof.
  assert (∀ (f : PathEntry → option string) e l,
            omap f (e :: l)
            = match f e with Some t => t :: omap f l | None => omap f l end)
    as Hcons by done.
  unfold paths. induction tags as [|t tags IH]; [done|].
  by rewrite fmap_cons, Hcons, tag_entry_param, IH.
Qed.

(** X14. A tag has as many routes as it has occurrences in the array: none
    when it is not there, several when it is repeated. *)
Theorem paths_multiplicity (tags : list string) (tag : string) :
  length (filter (λ e, params e !! "tag" = Some tag) (paths tags))
  = length (filter (λ t, t = tag) tags).
Proof. rewrite paths_filter_tag. apply length_fmap. Qed.

(** ** The configuration *)

(** X15. One rejected file keeps the whole configuration from loading: the
    module throws the build error, and the tags action is never run,
    whatever it is. *)
Theorem config_fail_fast {V}
    (getAllMarkdownFiles : unit → Completion V (list string))
    (parseFileToPost : string → Completion V Post)
    (files : list string) (console : list V) :
  getAllMarkdownFiles () = Normal files →
  (∃ f v, f ∈ files ∧ parseFileToPost f = Throw v) →
  ∃ v, ∀ tagsAction : list V → list V * Completion (JsError V) (list string),
    config getAllMarkdownFiles parseFileToPost tagsAction console
    = ((console ++ [v])%list, Throw (new_Error "Failed to retrieve article")).
Proof.
  intros Hwalk (f0 & v0 & Hin & Hf0).
  destruct (first_failure_exists parseFileToPost files f0 v0 Hin Hf0)
    as [[f v] Hfirst].
  apply first_failure_Some in Hfirst as [Hmap _].
  exists v. intros tagsAction.
  unfold config, postsAction. rewrite Hwalk. completion_simpl.
  by rewrite Hmap.
Qed.

Lemma config_fail_fast_witness :
  ∃ v, ∀ tagsAction : list FileError
                      → list FileError * Completion (JsError FileError) (list string),
    config (λ _, Normal [fileA; fileB]) (parseFile isoDate brokenTree)
      tagsAction []
    = (([] ++ [v])%list, Throw (new_Error "Failed to retrieve article")).
Proof.
  apply (config_fail_fast (λ _, Normal [fileA; fileB])
           (parseFile isoDate brokenTree) [fileA; fileB] []).
  - reflexivity.
  - exists fileB, (MissingRequiredField "date" fileB). split.
    + apply list_elem_of_In. simpl. right. left. reflexivity.
    + vm_compute. reflexivity.
Defined.

(** X16. When the configuration loads, the injected [__POSTS__] holds one
    post per listed file, in listing order, and the newest-posts widget
    run on it shows only posts built from listed files, as many as
    asked for or as there are files. *)
Theorem config_feeds_widget {V}
    (getAllMarkdownFiles : unit → Completion V (list string))
    (parseFileToPost : string → Completion V Post)
    (tagsAction : list V → list V * Completion (JsError V) (list string))
    (files : list string) (console console' : list V) (define : Define) :
  getAllMarkdownFiles () = Normal files →
  config getAllMarkdownFiles parseFileToPost tagsAction console
    = (console', Normal define) →
  Forall2 (λ f p, parseFileToPost f = Normal p) files (__POSTS__ define) ∧
  ∀ n : nat,
    length (getNewPosts (Z.of_nat n) (__POSTS__ define)).2
      = (n `min` length files)%nat ∧
    ∀ p, p ∈ (getNewPosts (Z.of_nat n) (__POSTS__ define)).2 →
         ∃ f, f ∈ files ∧ parseFileToPost f = Normal p.
Proof.
  intros Hwalk Hconfig.
  assert (Forall2 (λ f p, parseFileToPost f = Normal p) files (__POSTS__ define))
    as Hposts.
  { apply Array_map_Normal. revert Hconfig.
    unfold config, postsAction. rewrite Hwalk. completion_simpl.
    destruct (Array_map parseFileToPost files) as [posts|v]; [|done].
    destruct (tagsAction console) as [console2 [tags|e]]; [|done].
    by intros [= _ <-]. }
  split; [done|]. intros n. simpl. rewrite Array_slice_prefix. split.
  - rewrite length_take, Array_sort_length.
    by rewrite (Forall2_length _ _ _ Hposts).
  - intros p Hp. apply subseteq_take in Hp.
    rewrite Array_sort_Permutation in Hp.
    apply list_elem_of_lookup in Hp as [i Hi].
    destruct (Forall2_lookup_r _ _ _ _ _ Hposts Hi) as (f & Hf & Hparse).
    exists f. split; [|done]. apply list_elem_of_lookup. by exists i.
Qed.

Lemma config_feeds_widget_witness :
  Forall2 (λ f p, parseFile isoDate goodTree f = Normal p)
    [fileA; fileB] (__POSTS__ {| __POSTS__ := [postA; postB]; __TAGS__ := ["generics"; "ts"] |}) ∧
  ∀ n : nat,
    length (getNewPosts (Z.of_nat n)
              (__POSTS__ {| __POSTS__ := [postA; postB]; __TAGS__ := ["generics"; "ts"] |})).2
      = (n `min` length [fileA; fileB])%nat ∧
    ∀ p, p ∈ (getNewPosts (Z.of_nat n)
                (__POSTS__ {| __POSTS__ := [postA; postB]; __TAGS__ := ["generics"; "ts"] |})).2 →
         ∃ f, f ∈ [fileA; fileB] ∧ parseFile isoDate goodTree f = Normal p.
Proof.
  apply (config_feeds_widget (λ _, Normal [fileA; fileB])
           (parseFile isoDate goodTree)
           (λ console, (console, Normal ["generics"; "ts"]))
           [fileA; fileB] [] []
           {| __POSTS__ := [postA; postB]; __TAGS__ := ["generics"; "ts"] |}).
  - reflexivity.
  - vm_compute. reflexivity.
Defined.
